(** * The PortalScene handle bridge (PortalScene_JNI.h)

    A shallow embedding of the two inline helpers of namespace
    [PortalScene]:

    - [jptr] allocates a [PersistentRef<VROPortal>] holding a copy of a
      [std::shared_ptr<VROPortal>] and returns the holder's address as a
      [VRO_REF];
    - [native] turns a [VRO_REF] back into the holder's address and
      returns a copy of the [std::shared_ptr] it holds.

    The program state is the part of the C++ heap the helpers touch: the
    control blocks of the portals (their use counts) and the live
    [PersistentRef] objects, by address. *)

From stdpp Require Import gmap relations.
From Stdlib Require Import ZArith Lia.

Local Open Scope Z_scope.

(** ** Program state *)

(** The identity of a [VROPortal] managed by a control block. *)
Abbreviation obj := positive (only parsing).

(** A [std::shared_ptr<VROPortal>] value: empty, or a reference to a
    managed portal. Two references denote the same portal exactly when
    they are equal. *)
Abbreviation shared_ptr := (option obj) (only parsing).

(** A machine address, and the integer type [VRO_REF] of handles. *)
Abbreviation addr := Z (only parsing).
Abbreviation VRO_REF := Z (only parsing).

(** [use_count] maps every portal that is still alive to the number of
    [shared_ptr] instances owning it (at least one, hence [positive]);
    [holders] maps the address of every live [PersistentRef<VROPortal>]
    to the reference stored in it. *)
Record state := State {
  use_count : gmap obj positive;
  holders : gmap Z shared_ptr
}.

(** [shared_ptr::use_count()]: zero for a portal that is gone. *)
Definition count (σ : state) (o : obj) : Z :=
  match use_count σ !! o with
  | Some n => Z.pos n
  | None => 0
  end.

(** ** Computations

    A computation either completes with a value and a new state, or its
    behaviour is undefined (a dangling reference or pointer is used). *)
Inductive outcome (A : Type) : Type :=
| Done (a : A) (σ : state)
| Undefined.
Arguments Done {A} a σ.
Arguments Undefined {A}.

Definition M (A : Type) : Type := state → outcome A.

Definition ret {A} (a : A) : M A := λ σ, Done a σ.

Definition bind {A B} (c : M A) (k : A → M B) : M B :=
  λ σ, match c σ with
       | Done a σ' => k a σ'
       | Undefined => Undefined
       end.

Notation "'let*' x ':=' c 'in' k" := (bind c (λ x, k))
  (at level 10, x name, c at level 100, k at level 200, only parsing).

(** ** [std::shared_ptr] *)
Module SharedPtr.

(** The reference owns a portal that is alive (or is empty). Every
    [shared_ptr] instance that exists in a C++ program is such. *)
Definition valid (σ : state) (p : shared_ptr) : Prop :=
  match p with
  | None => True
  | Some o => is_Some (use_count σ !! o)
  end.

(** The use counts once one more instance of [p] exists. *)
Definition share (p : shared_ptr) (uc : gmap obj positive) : gmap obj positive :=
  match p with
  | None => uc
  | Some o => alter Pos.succ o uc
  end.

(** The use counts once one instance of [p] is gone. *)
Definition unshare (p : shared_ptr) (uc : gmap obj positive) : gmap obj positive :=
  match p with
  | None => uc
  | Some o =>
      match uc !! o with
      | Some 1%positive => delete o uc
      | _ => alter Pos.pred o uc
      end
  end.

(** Copy construction: the new instance shares ownership, the use
    count of the portal goes up by one. *)
Definition copy (p : shared_ptr) : M shared_ptr :=
  λ σ, match p with
       | None => Done None σ
       | Some o =>
           match use_count σ !! o with
           | Some _ => Done (Some o)
                         (State (alter Pos.succ o (use_count σ)) (holders σ))
           | None => Undefined
           end
       end.

(** Destruction of an instance: the use count goes down by one, and
    the portal is destroyed with its last owner. *)
Definition destroy (p : shared_ptr) : M unit :=
  λ σ, match p with
       | None => Done tt σ
       | Some o =>
           match use_count σ !! o with
           | Some 1%positive =>
               Done tt (State (delete o (use_count σ)) (holders σ))
           | Some _ =>
               Done tt (State (alter Pos.pred o (use_count σ)) (holders σ))
           | None => Undefined
           end
       end.

End SharedPtr.

(** ** [PersistentRef<VROPortal>] *)
Module PersistentRef.

(** Modelled from the spec: PersistentRef.h is not among the sources.
    The Ownership Holder "holds one shared-ownership reference to a
    Scene Object"; its constructor "takes (copies) the shared-ownership
    reference, incrementing the shared reference count". The storage at
    [this] is the one operator new handed out. *)
Definition construct (this : addr) (ptr : shared_ptr) : M addr :=
  let* held := SharedPtr.copy ptr in
  λ σ, Done this (State (use_count σ) (<[this := held]> (holders σ))).

(** Modelled from the spec: PersistentRef.h is not among the sources.
    [get] "copies out its held shared-ownership reference (incrementing
    the reference count again for the returned copy)". Calling it
    through a pointer to no live holder is undefined. *)
Definition get (this : addr) : M shared_ptr :=
  λ σ, match holders σ !! this with
       | Some held => SharedPtr.copy held σ
       | None => Undefined
       end.

(** Modelled from the spec: the release operation is not in the
    sources. It "destroys the corresponding Ownership Holder,
    decrementing the Scene Object's shared reference count". *)
Definition destroy (this : addr) : M unit :=
  λ σ, match holders σ !! this with
       | Some held =>
           SharedPtr.destroy held
             (State (use_count σ) (delete this (holders σ)))
       | None => Undefined
       end.

End PersistentRef.

(** ** Integer and pointer conversions *)

(** The value of a [w]-bit two's complement integer with the bits of [x],
    and of a [w]-bit unsigned one. *)
Definition wrap_signed (w x : Z) : Z :=
  (x + 2 ^ (w - 1)) mod 2 ^ w - 2 ^ (w - 1).

Definition wrap_unsigned (w x : Z) : Z := x mod 2 ^ w.

Module PortalScene.
Section Platform.

(** Pointers (and [intptr_t]) have [ptr_bits] bits. *)
Variable ptr_bits : Z.

(** Modelled from the spec: VRODefines.h, which defines [VRO_REF], is
    not among the sources. The handle is "a fixed-width integer value
    (width matching the native pointer size on the target platform)":
    a signed integer of [ref_bits] bits, at least as wide as a pointer
    (the JNI [jlong] has 64). *)
Variable ref_bits : Z.

(** [reinterpret_cast<intptr_t>(p)]: the bits of the address, read as
    a signed integer. *)
Definition reinterpret_cast_intptr (p : addr) : Z :=
  wrap_signed ptr_bits p.

(** The conversion of the [intptr_t] to the return type [VRO_REF]. *)
Definition to_VRO_REF (i : Z) : VRO_REF := wrap_signed ref_bits i.

(** [reinterpret_cast<PersistentRef<VROPortal> *>(ptr)]: the low
    [ptr_bits] bits of the integer. *)
Definition reinterpret_cast_pointer (ptr : VRO_REF) : addr :=
  wrap_unsigned ptr_bits ptr.

(** [new] hands out storage at a non-null address that holds no live
    object. An exhausted heap hands out nothing: [new] then does not
    return and neither does [jptr]. *)
Definition new_returns (σ : state) (a : addr) : Prop :=
  0 < a < 2 ^ ptr_bits ∧ holders σ !! a = None.

(** [jptr], called with an lvalue argument. The by-value parameter
    [shared_portal] is a copy of the caller's argument, which the caller
    keeps, and is destroyed when the function returns; [a] is the
    address [new] hands out. *)
Definition jptr (a : addr) (arg : shared_ptr) : M VRO_REF :=
  let* shared_portal := SharedPtr.copy arg in
  let* native_portal := PersistentRef.construct a shared_portal in
  let r := to_VRO_REF (reinterpret_cast_intptr native_portal) in
  let* _ := SharedPtr.destroy shared_portal in
  ret r.

(** The body of [jptr], between entry and return, its parameter
    [shared_portal] in place. *)
Definition jptr_body (a : addr) (shared_portal : shared_ptr) : M VRO_REF :=
  let* native_portal := PersistentRef.construct a shared_portal in
  ret (to_VRO_REF (reinterpret_cast_intptr native_portal)).

(** [jptr], called with an rvalue or a temporary. The by-value
    parameter is move-constructed: it takes over the share of the
    caller's instance, which is left empty, and no use count changes.
    It is destroyed when the function returns. *)
Definition jptr_moved (a : addr) (arg : shared_ptr) : M VRO_REF :=
  let shared_portal := arg in
  let* r := jptr_body a shared_portal in
  let* _ := SharedPtr.destroy shared_portal in
  ret r.

(** How the argument of a call reaches the by-value parameter. *)
Inductive passing : Type := Copied | Moved.

Definition jptr_call (m : passing) (a : addr) (arg : shared_ptr) : M VRO_REF :=
  match m with
  | Copied => jptr a arg
  | Moved => jptr_moved a arg
  end.

(** The owners a completed call of [jptr] leaves more than it found:
    the holder's share, less the caller's share when that was moved. *)
Definition owners_gained (m : passing) : Z :=
  match m with
  | Copied => 1
  | Moved => 0
  end.

(** [native]. *)
Definition native (ptr : VRO_REF) : M shared_ptr :=
  let persistentPortal := reinterpret_cast_pointer ptr in
  PersistentRef.get persistentPortal.

(** Modelled from the spec: the release collaborator is not in the
    sources. Given a handle it "destroys the corresponding Ownership
    Holder": [delete] of the holder behind the handle. *)
Definition release (ptr : VRO_REF) : M unit :=
  PersistentRef.destroy (reinterpret_cast_pointer ptr).

(** The handle of the holder at address [a]. *)
Definition handle_of (a : addr) : VRO_REF :=
  to_VRO_REF (reinterpret_cast_intptr a).

(** A handle produced by [jptr] and not released since: it is the
    handle of a live holder, whose stored reference keeps its portal
    alive. *)
Definition valid_handle (σ : state) (h : VRO_REF) (held : shared_ptr) : Prop :=
  ∃ a, 0 < a < 2 ^ ptr_bits ∧ h = handle_of a ∧
       holders σ !! a = Some held ∧ SharedPtr.valid σ held.

(** ** Call sequences

    What a caller can do with the bridge alone: any sequence of calls
    of [jptr] and [native]. *)
Inductive call : Type :=
| Wrap (a : addr) (arg : shared_ptr)
| Unwrap (h : VRO_REF).

Inductive result : Type :=
| Handle (h : VRO_REF)
| Reference (p : shared_ptr).

Definition perform (c : call) : M result :=
  match c with
  | Wrap a arg => let* h := jptr a arg in ret (Handle h)
  | Unwrap h => let* p := native h in ret (Reference p)
  end.

Fixpoint run (cs : list call) : M (list result) :=
  match cs with
  | [] => ret []
  | c :: cs' =>
      let* r := perform c in
      let* rs := run cs' in
      ret (r :: rs)
  end.

(** [n] calls of [native] on one handle, keeping every reference
    returned. *)
Fixpoint native_times (n : nat) (h : VRO_REF) : M (list shared_ptr) :=
  match n with
  | O => ret []
  | S n' =>
      let* p := native h in
      let* ps := native_times n' h in
      ret (p :: ps)
  end.

End Platform.
End PortalScene.

(** ** The bridge as a transition system

    The heaps a program can reach with the bridge alone, one call at a
    time, and what is kept along the way. *)
Module Bridge.
Section Platform.

Variables ptr_bits ref_bits : Z.

(** One completed call of [jptr], on storage [new] handed out, or of
    [native]. *)
Inductive step : state → state → Prop :=
| step_jptr σ a p h σ' :
    PortalScene.new_returns ptr_bits σ a →
    PortalScene.jptr ptr_bits ref_bits a p σ = Done h σ' →
    step σ σ'
| step_native σ h p σ' :
    PortalScene.native ptr_bits h σ = Done p σ' →
    step σ σ'.

(** Every holder sits at a non-null address and stores a reference to
    a portal that is alive (or the empty reference). *)
Definition heap_ok (σ : state) : Prop :=
  map_Forall (λ a held, 0 < a < 2 ^ ptr_bits ∧ SharedPtr.valid σ held)
    (holders σ).

(** The number of holders that store a reference to [o]. *)
Definition held_by (σ : state) (o : obj) : nat :=
  size (filter (λ kv, kv.2 = Some o) (holders σ)).

(** The holders of a portal are among its owners. *)
Definition accounted (σ : state) : Prop :=
  ∀ o, Z.of_nat (held_by σ o) ≤ count σ o.

(** A call of the bridge, [jptr] with its argument copied or moved. *)
Inductive invocation : Type :=
| Jptr (m : PortalScene.passing) (a : addr) (arg : shared_ptr)
| Native (h : VRO_REF).

Definition invoke (c : invocation) : M PortalScene.result :=
  match c with
  | Jptr m a arg =>
      let* h := PortalScene.jptr_call ptr_bits ref_bits m a arg in
      ret (PortalScene.Handle h)
  | Native h =>
      let* p := PortalScene.native ptr_bits h in
      ret (PortalScene.Reference p)
  end.

Fixpoint exec (cs : list invocation) : M (list PortalScene.result) :=
  match cs with
  | [] => ret []
  | c :: cs' =>
      let* r := invoke c in
      let* rs := exec cs' in
      ret (r :: rs)
  end.

(** The reference a completed call leaves one more owner for: the one
    [jptr] was given, unless the caller's share was moved, and the one
    [native] returned. *)
Definition referent (c : invocation) (r : PortalScene.result) : shared_ptr :=
  match c, r with
  | Jptr PortalScene.Copied _ p, _ => p
  | Jptr PortalScene.Moved _ _, _ => None
  | Native _, PortalScene.Reference p => p
  | Native _, PortalScene.Handle _ => None
  end.

(** How many of the calls left one more owner for [o]. *)
Definition owners_added (o : obj) (cs : list invocation)
    (rs : list PortalScene.result) : nat :=
  length (filter (λ p, p = Some o) (zip_with referent cs rs)).

(** The holders once the [jptr] calls among [cs] have stored theirs. *)
Definition stored (cs : list invocation)
    (hs : gmap Z shared_ptr) : gmap Z shared_ptr :=
  foldl (λ m c, match c with
                | Jptr _ a p => <[a := p]> m
                | Native _ => m
                end) hs cs.

End Platform.
End Bridge.

(** ** A concrete platform and heap

    A 32-bit Android target: pointers have 32 bits, the handle is a JNI
    [jlong] of 64. The heap starts with one portal, owned once by the
    caller, and no holder. The addresses have the top bit set, so their
    [intptr_t] is negative. *)
Module Sample.

Definition ptr_bits : Z := 32.
Definition ref_bits : Z := 64.

Definition portal : option positive := Some 1%positive.

Definition σ0 : state := State {[1%positive := 1%positive]} ∅.

Definition a1 : Z := 3019903488.
Definition a2 : Z := 3019903520.

Definition h1 : Z := -1275063808.
Definition h2 : Z := -1275063776.

(** The heap after [jptr] of [portal] at [a1], and after a second one
    at [a2]. *)
Definition σ1 : state :=
  State {[1%positive := 2%positive]} {[a1 := portal]}.

Definition σ2 : state :=
  State {[1%positive := 3%positive]} (<[a2 := portal]> {[a1 := portal]}).

(** A sequence of calls, what they return, and the heap they leave. *)
Definition calls : list PortalScene.call :=
  [PortalScene.Wrap a1 portal; PortalScene.Unwrap h1;
   PortalScene.Wrap a2 portal; PortalScene.Unwrap h2;
   PortalScene.Unwrap h1].

Definition results : list PortalScene.result :=
  [PortalScene.Handle h1; PortalScene.Reference portal;
   PortalScene.Handle h2; PortalScene.Reference portal;
   PortalScene.Reference portal].

Definition σ5 : state :=
  State {[1%positive := 6%positive]} (<[a2 := portal]> {[a1 := portal]}).

End Sample.

(** Calls on the sample heap that move their argument. *)
Module SampleMoved.

Import Sample.

(** The heap after [jptr] at [a1] of [portal], moved from the caller:
    the holder owns the one share there is. *)
Definition σ1 : state :=
  State {[1%positive := 1%positive]} {[a1 := portal]}.

(** One call that copies, one [native], one call that moves, and a
    [native] on each handle; what they return and the heap they
    leave. *)
Definition calls : list Bridge.invocation :=
  [Bridge.Jptr PortalScene.Copied a1 portal; Bridge.Native h1;
   Bridge.Jptr PortalScene.Moved a2 portal; Bridge.Native h2;
   Bridge.Native h1].

Definition results : list PortalScene.result :=
  [PortalScene.Handle h1; PortalScene.Reference portal;
   PortalScene.Handle h2; PortalScene.Reference portal;
   PortalScene.Reference portal].

Definition σ5 : state :=
  State {[1%positive := 5%positive]} (<[a2 := portal]> {[a1 := portal]}).

End SampleMoved.

(** * Properties *)

(** ** Two's complement conversions *)
Section Wrap.

Variable w : Z.
Hypothesis w_pos : 0 < w.

Lemma pow2_half : 2 ^ w = 2 * 2 ^ (w - 1).
Proof. rewrite <- Z.pow_succ_r by lia. f_equal. lia. Qed.

Lemma pow2_half_pos : 0 < 2 ^ (w - 1).
Proof. apply Z.pow_pos_nonneg; lia. Qed.

Lemma wrap_signed_range x :
  - 2 ^ (w - 1) ≤ wrap_signed w x < 2 ^ (w - 1).
Proof.
  unfold wrap_signed.
  pose proof pow2_half. pose proof pow2_half_pos.
  pose proof (Z.mod_pos_bound (x + 2 ^ (w - 1)) (2 ^ w)). lia.
Qed.

Lemma wrap_signed_id x :
  - 2 ^ (w - 1) ≤ x < 2 ^ (w - 1) → wrap_signed w x = x.
Proof.
  intros Hx. unfold wrap_signed.
  pose proof pow2_half.
  rewrite Z.mod_small by lia. lia.
Qed.

Lemma wrap_unsigned_signed x :
  wrap_unsigned w (wrap_signed w x) = wrap_unsigned w x.
Proof.
  unfold wrap_unsigned, wrap_signed.
  pose proof pow2_half_pos. pose proof pow2_half.
  assert (Hne : 2 ^ w ≠ 0) by lia.
  rewrite Zminus_mod, Zmod_mod, <- Zminus_mod.
  f_equal. lia.
Qed.

End Wrap.

(** ** [std::shared_ptr] operations *)
Section SharedPtrFacts.

Implicit Types (σ : state) (p : shared_ptr) (o : obj).

Lemma copy_valid σ p :
  SharedPtr.valid σ p →
  SharedPtr.copy p σ =
    Done p (State (SharedPtr.share p (use_count σ)) (holders σ)).
Proof.
  destruct σ as [uc hs], p as [o|]; simpl; [|done].
  intros [n Hn]. by rewrite Hn.
Qed.

Lemma destroy_valid σ p :
  SharedPtr.valid σ p →
  SharedPtr.destroy p σ =
    Done tt (State (SharedPtr.unshare p (use_count σ)) (holders σ)).
Proof.
  destruct σ as [uc hs], p as [o|]; simpl; [|done].
  intros [n Hn]. rewrite Hn. by destruct n.
Qed.

Lemma share_valid σ p q hs :
  SharedPtr.valid σ p →
  SharedPtr.valid (State (SharedPtr.share q (use_count σ)) hs) p.
Proof.
  destruct p as [o|], q as [o'|]; simpl; try done.
  intros H. by apply lookup_alter_is_Some.
Qed.

(** Destroying a copy undoes the copy. *)
Lemma unshare_share p (uc : gmap obj positive) :
  SharedPtr.unshare p (SharedPtr.share p uc) = uc.
Proof.
  destruct p as [o|]; simpl; [|done].
  rewrite lookup_alter_eq.
  destruct (uc !! o) as [n|] eqn:Hn; simpl.
  - destruct (Pos.succ n) eqn:Hs; try lia;
      rewrite alter_alter_eq;
      apply alter_id; intros x _; apply Pos.pred_succ.
  - rewrite alter_alter_eq. by apply alter_id'.
Qed.

Lemma count_share σ p hs o :
  SharedPtr.valid σ p →
  count (State (SharedPtr.share p (use_count σ)) hs) o =
    count σ o + (if decide (p = Some o) then 1 else 0).
Proof.
  unfold count.
  destruct p as [o'|]; cbn [SharedPtr.share SharedPtr.valid use_count].
  - intros [n Hn]. rewrite lookup_alter.
    repeat case_decide; simplify_eq.
    + rewrite Hn. simpl. lia.
    + destruct (_ !! o); lia.
  - intros _. case_decide; [done|]. destruct (_ !! o); lia.
Qed.

End SharedPtrFacts.

(** ** The monad *)

Lemma bind_done {A B} (c : M A) (k : A → M B) σ a σ' :
  c σ = Done a σ' → bind c k σ = k a σ'.
Proof. unfold bind. by intros ->. Qed.

Lemma bind_inv {A B} (c : M A) (k : A → M B) σ b σ'' :
  bind c k σ = Done b σ'' →
  ∃ a σ', c σ = Done a σ' ∧ k a σ' = Done b σ''.
Proof. unfold bind. destruct (c σ) as [a σ'|]; [eauto | done]. Qed.

(** ** The bridge *)
Section Bridge.

Variables ptr_bits ref_bits : Z.
Hypothesis ptr_bits_pos : 0 < ptr_bits.
Hypothesis ref_bits_ge : ptr_bits ≤ ref_bits.

Local Abbreviation handle_of := (PortalScene.handle_of ptr_bits ref_bits).
Local Abbreviation pointer_of := (PortalScene.reinterpret_cast_pointer ptr_bits).
Local Abbreviation jptr := (PortalScene.jptr ptr_bits ref_bits).
Local Abbreviation native := (PortalScene.native ptr_bits).
Local Abbreviation release := (PortalScene.release ptr_bits).
Local Abbreviation new_returns := (PortalScene.new_returns ptr_bits).
Local Abbreviation valid_handle := (PortalScene.valid_handle ptr_bits ref_bits).

Implicit Types (σ : state) (p held : shared_ptr) (o : obj) (a : addr)
  (h : VRO_REF).

(** *** Conversions between holder addresses and handles *)

(** The [intptr_t] of an address fits a [VRO_REF] unchanged. *)
Lemma handle_of_intptr a :
  handle_of a = PortalScene.reinterpret_cast_intptr ptr_bits a.
Proof.
  unfold PortalScene.handle_of, PortalScene.to_VRO_REF,
    PortalScene.reinterpret_cast_intptr.
  apply wrap_signed_id; [lia|].
  pose proof (wrap_signed_range ptr_bits ptr_bits_pos a).
  assert (2 ^ (ptr_bits - 1) ≤ 2 ^ (ref_bits - 1))
    by (apply Z.pow_le_mono_r; lia).
  lia.
Qed.

Lemma pointer_of_handle a :
  0 ≤ a < 2 ^ ptr_bits → pointer_of (handle_of a) = a.
Proof.
  intros Ha. rewrite handle_of_intptr.
  unfold PortalScene.reinterpret_cast_pointer,
    PortalScene.reinterpret_cast_intptr.
  rewrite wrap_unsigned_signed by done.
  by apply Z.mod_small.
Qed.

Lemma handle_of_inj a b :
  0 ≤ a < 2 ^ ptr_bits → 0 ≤ b < 2 ^ ptr_bits →
  handle_of a = handle_of b → a = b.
Proof.
  intros Ha Hb Heq.
  rewrite <- (pointer_of_handle a), <- (pointer_of_handle b) by done.
  by rewrite Heq.
Qed.

Lemma handle_of_nonzero a :
  0 < a < 2 ^ ptr_bits → handle_of a ≠ 0.
Proof.
  intros Ha Heq.
  assert (Hp : pointer_of (handle_of a) = a) by (apply pointer_of_handle; lia).
  rewrite Heq in Hp.
  unfold PortalScene.reinterpret_cast_pointer, wrap_unsigned in Hp.
  rewrite Z.mod_0_l in Hp; lia.
Qed.

(** *** The net effect of one call *)

(** [jptr] stores a holder of [p] at [a] and leaves one more owner of
    the portal behind: the parameter's copy is gone on return. *)
Lemma jptr_eq σ a p :
  SharedPtr.valid σ p →
  jptr a p σ =
    Done (handle_of a)
      (State (SharedPtr.share p (use_count σ)) (<[a := p]> (holders σ))).
Proof.
  intros Hp. unfold PortalScene.jptr.
  rewrite (bind_done _ _ _ _ _ (copy_valid σ p Hp)).
  unfold PersistentRef.construct.
  erewrite bind_done; last first.
  { erewrite bind_done; [reflexivity|].
    apply copy_valid. by apply share_valid. }
  erewrite bind_done; last first.
  { apply destroy_valid. cbn [use_count].
    apply (share_valid (State _ (holders σ))). by apply share_valid. }
  cbn [use_count holders ret]. by rewrite unshare_share.
Qed.

(** The body of [jptr] stores a holder of [p] at [a]; the holder's
    copy is one more owner. *)
Lemma jptr_body_eq σ a p :
  SharedPtr.valid σ p →
  PortalScene.jptr_body ptr_bits ref_bits a p σ =
    Done (handle_of a)
      (State (SharedPtr.share p (use_count σ)) (<[a := p]> (holders σ))).
Proof.
  intros Hp. unfold PortalScene.jptr_body.
  erewrite bind_done; [reflexivity|].
  unfold PersistentRef.construct.
  erewrite bind_done; [|by apply copy_valid]. reflexivity.
Qed.

(** With the argument moved, the holder's share replaces the caller's:
    the use counts are as before the call. *)
Lemma jptr_moved_eq σ a p :
  SharedPtr.valid σ p →
  PortalScene.jptr_moved ptr_bits ref_bits a p σ =
    Done (handle_of a) (State (use_count σ) (<[a := p]> (holders σ))).
Proof.
  intros Hp. unfold PortalScene.jptr_moved.
  rewrite (bind_done _ _ _ _ _ (jptr_body_eq σ a p Hp)).
  erewrite bind_done; last first.
  { apply destroy_valid. by apply share_valid. }
  cbn [use_count holders ret]. by rewrite unshare_share.
Qed.

Lemma jptr_call_eq m σ a p :
  SharedPtr.valid σ p →
  PortalScene.jptr_call ptr_bits ref_bits m a p σ =
    Done (handle_of a)
      (State (match m with
              | PortalScene.Copied => SharedPtr.share p (use_count σ)
              | PortalScene.Moved => use_count σ
              end) (<[a := p]> (holders σ))).
Proof.
  intros Hp. destruct m; simpl; [by apply jptr_eq | by apply jptr_moved_eq].
Qed.

Lemma count_jptr_call m σ p hs o :
  SharedPtr.valid σ p →
  count (State (match m with
                | PortalScene.Copied => SharedPtr.share p (use_count σ)
                | PortalScene.Moved => use_count σ
                end) hs) o =
    count σ o +
      (if decide (p = Some o) then PortalScene.owners_gained m else 0).
Proof.
  intros Hp. destruct m; simpl.
  - by apply count_share.
  - unfold count. simpl. case_decide; lia.
Qed.

(** [native] on the handle of a live holder returns the held
    reference and leaves one more owner of the portal behind. *)
Lemma native_eq σ a held :
  0 ≤ a < 2 ^ ptr_bits →
  holders σ !! a = Some held →
  SharedPtr.valid σ held →
  native (handle_of a) σ =
    Done held (State (SharedPtr.share held (use_count σ)) (holders σ)).
Proof.
  intros Ha Hh Hv. unfold PortalScene.native, PersistentRef.get.
  rewrite pointer_of_handle, Hh by done.
  by apply copy_valid.
Qed.

(** [release] on the handle of a live holder removes the holder and
    the holder's ownership. *)
Lemma release_eq σ a held :
  0 ≤ a < 2 ^ ptr_bits →
  holders σ !! a = Some held →
  SharedPtr.valid σ held →
  release (handle_of a) σ =
    Done tt (State (SharedPtr.unshare held (use_count σ))
               (delete a (holders σ))).
Proof.
  intros Ha Hh Hv. unfold PortalScene.release, PersistentRef.destroy.
  rewrite pointer_of_handle, Hh by done.
  by rewrite destroy_valid.
Qed.

(** *** Outcomes determine their preconditions *)

Lemma copy_done σ p q σ' :
  SharedPtr.copy p σ = Done q σ' → SharedPtr.valid σ p.
Proof.
  destruct p as [o|]; simpl; [|done].
  destruct (use_count σ !! o); [eauto | done].
Qed.

Lemma jptr_done σ a p h σ' :
  jptr a p σ = Done h σ' → SharedPtr.valid σ p.
Proof.
  unfold PortalScene.jptr. intros (q & σ1 & Hc & _)%bind_inv.
  by eapply copy_done.
Qed.

Lemma native_done σ h p σ' :
  native h σ = Done p σ' →
  holders σ !! pointer_of h = Some p ∧ SharedPtr.valid σ p ∧
  σ' = State (SharedPtr.share p (use_count σ)) (holders σ).
Proof.
  unfold PortalScene.native, PersistentRef.get.
  destruct (holders σ !! pointer_of h) as [held|]; [|done].
  intros Hc. pose proof (copy_done _ _ _ _ Hc) as Hv.
  rewrite copy_valid in Hc by done. by simplify_eq.
Qed.

(** *** Valid handles *)

Lemma valid_handle_share σ h held q hs :
  valid_handle σ h held →
  (∀ a, holders σ !! a = Some held → hs !! a = Some held) →
  valid_handle (State (SharedPtr.share q (use_count σ)) hs) h held.
Proof.
  intros (a & Ha & -> & Hh & Hv) Hhs.
  exists a. split_and!; [lia | lia | done | by apply Hhs | by apply share_valid].
Qed.

(** Destroying one owner of [q] leaves [o] alive, unless it is the last
    owner of [o] that goes. *)
Lemma unshare_is_Some q (uc : gmap obj positive) o :
  is_Some (uc !! o) →
  (q = Some o → uc !! o ≠ Some 1%positive) →
  is_Some (SharedPtr.unshare q uc !! o).
Proof.
  intros Ho Hq. destruct q as [o'|]; simpl; [|done].
  destruct (decide (o' = o)) as [->|Hne].
  - destruct Ho as [n Hn]. rewrite Hn.
    destruct n; try (by apply lookup_alter_is_Some; eauto).
    by destruct Hq.
  - destruct (uc !! o') as [[]|];
      rewrite ?lookup_delete_ne by done;
      try apply lookup_alter_is_Some; done.
Qed.

(** *** Round trip *)

(** C1: for a reference [Some o] to a live portal, [native (jptr S)]
    returns a reference to the same portal [o]. *)
Theorem native_jptr_roundtrip σ a o :
  SharedPtr.valid σ (Some o) →
  new_returns σ a →
  ∃ h σ1 σ2,
    jptr a (Some o) σ = Done h σ1 ∧ native h σ1 = Done (Some o) σ2.
Proof.
  intros Hv [Ha _].
  eexists _, _, _. split; [by apply jptr_eq|].
  apply native_eq; [lia | apply lookup_insert_eq |].
  by apply share_valid.
Qed.

(** C8: an empty reference is wrapped like any other, and unwrapping the
    handle gives the empty reference back; no use count changes. *)
Theorem native_jptr_empty σ a :
  new_returns σ a →
  ∃ h σ1 σ2,
    jptr a None σ = Done h σ1 ∧ native h σ1 = Done None σ2 ∧
    use_count σ2 = use_count σ.
Proof.
  intros [Ha _].
  eexists _, _, _. split; [by apply jptr_eq|].
  split; [apply native_eq; [lia | apply lookup_insert_eq | done]|].
  reflexivity.
Qed.

(** *** Handles *)

(** C10: whatever reference is wrapped, empty or not, the handle [jptr]
    returns is not zero. *)
Theorem jptr_nonzero σ a p :
  SharedPtr.valid σ p →
  new_returns σ a →
  ∃ h σ', jptr a p σ = Done h σ' ∧ h ≠ 0.
Proof.
  intros Hv [Ha _].
  eexists _, _. split; [by apply jptr_eq|].
  by apply handle_of_nonzero.
Qed.

(** C2: the handle [jptr] returns differs from the handle [h1] of every
    holder that is live at the call, whatever the two holders refer to;
    both handles are valid afterwards, and releasing either of them
    leaves the other one valid, its portal alive. *)
Theorem jptr_handle_distinct σ a p h1 held1 :
  valid_handle σ h1 held1 →
  SharedPtr.valid σ p →
  new_returns σ a →
  ∃ h2 σ',
    jptr a p σ = Done h2 σ' ∧ h2 ≠ h1 ∧
    valid_handle σ' h1 held1 ∧ valid_handle σ' h2 p ∧
    (∃ σ'', release h1 σ' = Done tt σ'' ∧ valid_handle σ'' h2 p) ∧
    (∃ σ'', release h2 σ' = Done tt σ'' ∧ valid_handle σ'' h1 held1).
Proof.
  intros Hh1 Hv [Ha Hfresh].
  pose proof Hh1 as (a1 & Ha1 & -> & Hheld1 & Hv1).
  assert (Hne : a ≠ a1) by congruence.
  set (σ' := State (SharedPtr.share p (use_count σ)) (<[a := p]> (holders σ))).
  assert (Hσ'1 : holders σ' !! a1 = Some held1)
    by (simpl; by rewrite lookup_insert_ne).
  assert (Hσ'a : holders σ' !! a = Some p) by apply lookup_insert_eq.
  assert (Hv' : SharedPtr.valid σ' p) by by apply share_valid.
  assert (Hv1' : SharedPtr.valid σ' held1) by by apply share_valid.
  exists (handle_of a), σ'. split_and!.
  - by apply jptr_eq.
  - intros Heq. apply Hne. apply handle_of_inj; [lia | lia | done].
  - exists a1. split_and!; [lia | lia | done..].
  - exists a. split_and!; [lia | lia | done..].
  - eexists. split; [apply (release_eq σ' a1 held1); [lia | done | done]|].
    exists a. split_and!; [lia | lia | done | |].
    + simpl. by rewrite lookup_delete_ne, lookup_insert_eq.
    + destruct p as [o|]; [|done]. destruct Hv as [n Hn].
      apply unshare_is_Some; [done|]. simpl. intros ->.
      rewrite lookup_alter_eq, Hn. simpl. intros [=]. lia.
  - eexists. split; [apply (release_eq σ' a p); [lia | done | done]|].
    simpl. rewrite unshare_share, delete_insert_id by done.
    by destruct σ.
Qed.

(** *** Effects *)

(** C3: as the code has it, one call of [jptr] adds exactly one holder,
    at the address [new] handed out and storing the reference. Inside
    the function the holder's copy raises the use count of the
    referenced portal by exactly one. Over the whole call the count is
    up by one when the argument was copied into the by-value parameter,
    and as before when it was moved into it, the parameter releasing on
    return the share it took from the caller. Nothing else changes: no
    other holder, no other use count. *)
Theorem jptr_call_effect m σ a p :
  SharedPtr.valid σ p →
  new_returns σ a →
  ∃ h σb σ',
    PortalScene.jptr_body ptr_bits ref_bits a p σ = Done h σb ∧
    (∀ o, count σb o = count σ o + (if decide (p = Some o) then 1 else 0)) ∧
    PortalScene.jptr_call ptr_bits ref_bits m a p σ = Done h σ' ∧
    holders σ' = <[a := p]> (holders σ) ∧
    dom (holders σ') = {[a]} ∪ dom (holders σ) ∧
    size (holders σ') = S (size (holders σ)) ∧
    (∀ a', a' ≠ a → holders σ' !! a' = holders σ !! a') ∧
    (∀ o, count σ' o =
          count σ o +
            (if decide (p = Some o) then PortalScene.owners_gained m else 0)).
Proof.
  intros Hv [Ha Hfresh].
  eexists _, _, _. split; [by apply jptr_body_eq|].
  split; [intros o; by apply count_share|].
  split; [by apply jptr_call_eq|]. simpl. split_and!.
  - done.
  - apply dom_insert_L.
  - by apply map_size_insert_None.
  - intros a' Hne. by apply lookup_insert_ne.
  - intros o. by apply count_jptr_call.
Qed.

(** C5: [native] on a valid handle returns the reference the holder
    stores, as one more owner of the same portal; the holders are as
    before, and destroying the returned reference afterwards restores
    the state of before the call, in which the handle is valid. *)
Theorem native_frame σ h held :
  valid_handle σ h held →
  ∃ σ',
    native h σ = Done held σ' ∧
    holders σ' = holders σ ∧
    (∀ o, count σ' o = count σ o + (if decide (held = Some o) then 1 else 0)) ∧
    valid_handle σ' h held ∧
    SharedPtr.destroy held σ' = Done tt σ.
Proof.
  intros Hh. pose proof Hh as (a & Ha & -> & Hheld & Hv).
  eexists. split; [apply native_eq; [lia | done | done]|].
  simpl. split_and!.
  - done.
  - intros o. by apply count_share.
  - by apply valid_handle_share.
  - rewrite destroy_valid by by apply share_valid.
    simpl. rewrite unshare_share. by destruct σ.
Qed.

(** *** Use counts along call sequences *)

Lemma count_alive σ o : is_Some (use_count σ !! o) ↔ 0 < count σ o.
Proof.
  unfold count. rewrite <- not_eq_None_Some.
  destruct (use_count σ !! o); split; (lia || done).
Qed.

Lemma count_share_le σ p hs o :
  SharedPtr.valid σ p →
  count σ o ≤ count (State (SharedPtr.share p (use_count σ)) hs) o.
Proof. intros Hv. rewrite count_share by done. case_decide; lia. Qed.

Lemma perform_monotone c σ r σ' :
  PortalScene.perform ptr_bits ref_bits c σ = Done r σ' →
  (∀ o, count σ o ≤ count σ' o) ∧
  (∀ a, is_Some (holders σ !! a) → is_Some (holders σ' !! a)).
Proof.
  destruct c as [a p|h]; simpl;
    intros (x & σ1 & Hcall & Hret)%bind_inv;
    unfold ret in Hret; simplify_eq.
  - pose proof (jptr_done _ _ _ _ _ Hcall) as Hv.
    rewrite jptr_eq in Hcall by done. simplify_eq. split.
    + intros o. by apply count_share_le.
    + intros a' Ha'. simpl. apply lookup_insert_is_Some'. by right.
  - apply native_done in Hcall as (_ & Hv & ->). split.
    + intros o. by apply count_share_le.
    + done.
Qed.

(** C6: a sequence of [jptr] and [native] calls leaves no use count
    lower than it found it (after every call of the sequence, each
    prefix being a sequence too), so no portal that was alive is
    destroyed, and no holder is destroyed either. *)
Theorem run_never_releases cs σ rs σ' :
  PortalScene.run ptr_bits ref_bits cs σ = Done rs σ' →
  (∀ o, count σ o ≤ count σ' o) ∧
  (∀ o, is_Some (use_count σ !! o) → is_Some (use_count σ' !! o)) ∧
  (∀ a, is_Some (holders σ !! a) → is_Some (holders σ' !! a)).
Proof.
  revert σ rs σ'.
  assert (Hrun : ∀ cs σ rs σ',
    PortalScene.run ptr_bits ref_bits cs σ = Done rs σ' →
    (∀ o, count σ o ≤ count σ' o) ∧
    (∀ a, is_Some (holders σ !! a) → is_Some (holders σ' !! a))).
  { clear cs. induction cs as [|c cs IH]; intros σ rs σ'; simpl.
    - unfold ret. intros. by simplify_eq.
    - intros (r & σ1 & Hc & (rs' & σ2 & Hcs & Hret)%bind_inv)%bind_inv.
      unfold ret in Hret. simplify_eq.
      apply perform_monotone in Hc as [Hc1 Hc2].
      apply IH in Hcs as [Hcs1 Hcs2]. split.
      + intros o. specialize (Hc1 o). specialize (Hcs1 o). lia.
      + auto. }
  intros σ rs σ' [Hcount Hheld]%Hrun. split_and!; [done | | done].
  intros o Ho%count_alive. apply count_alive.
  specialize (Hcount o). lia.
Qed.

(** C9: any number [n] of [native] calls on a valid handle all complete
    and return the reference the holder stores; the use count of its
    portal has gone up by [n], one per call, the holders are unchanged
    and the handle is still valid. *)
Theorem native_repeatable n σ h held :
  valid_handle σ h held →
  ∃ σ',
    PortalScene.native_times ptr_bits n h σ = Done (replicate n held) σ' ∧
    holders σ' = holders σ ∧
    (∀ o, count σ' o =
          count σ o + (if decide (held = Some o) then Z.of_nat n else 0)) ∧
    valid_handle σ' h held.
Proof.
  revert σ. induction n as [|n IH]; intros σ Hh.
  - exists σ. split_and!; [done | done | | done].
    intros o. case_decide; simpl; lia.
  - pose proof Hh as (a & Ha & -> & Hheld & Hv).
    set (σ1 := State (SharedPtr.share held (use_count σ)) (holders σ)).
    assert (Hh1 : valid_handle σ1 (handle_of a) held)
      by by apply valid_handle_share.
    destruct (IH σ1 Hh1) as (σ' & Hrun & Hhs & Hcount & Hh').
    exists σ'. split_and!; [| done | | done].
    + cbn [PortalScene.native_times].
      erewrite bind_done by (apply native_eq; [lia | done | done]).
      by erewrite bind_done by exact Hrun.
    + intros o. rewrite Hcount. unfold σ1.
      rewrite count_share by done. case_decide; lia.
Qed.

(** *** Repeating a call *)

(** C7: as the code has it, both operations complete on well-formed
    input, and neither leaves the state as it was. A [jptr] call on a
    reference the caller keeps adds a holder and an owner; a second
    call on the same reference, while the first holder is live, adds
    another holder and returns a different handle, whatever address
    [new] hands out, and adds an owner too unless the caller's share is
    moved into it. A [native] call adds an owner and changes no holder;
    a second one on the same handle returns the same reference as the
    first. *)
Theorem bridge_repeated_calls m σ a1 p :
  SharedPtr.valid σ p →
  new_returns σ a1 →
  ∃ h1 σ1,
    jptr a1 p σ = Done h1 σ1 ∧ holders σ1 ≠ holders σ ∧
    holders σ1 = <[a1 := p]> (holders σ) ∧
    (∀ o, count σ1 o = count σ o + (if decide (p = Some o) then 1 else 0)) ∧
    (∀ a2, new_returns σ1 a2 →
       ∃ h2 σ2,
         PortalScene.jptr_call ptr_bits ref_bits m a2 p σ1 = Done h2 σ2 ∧
         h2 ≠ h1 ∧ holders σ2 ≠ holders σ1 ∧
         holders σ2 = <[a2 := p]> (holders σ1) ∧
         ∀ o, count σ2 o =
              count σ1 o +
                (if decide (p = Some o) then PortalScene.owners_gained m
                 else 0)) ∧
    ∃ σ2 σ3,
      native h1 σ1 = Done p σ2 ∧ native h1 σ2 = Done p σ3 ∧
      holders σ2 = holders σ1 ∧ holders σ3 = holders σ1 ∧
      ∀ o, count σ2 o = count σ1 o + (if decide (p = Some o) then 1 else 0) ∧
           count σ3 o = count σ2 o + (if decide (p = Some o) then 1 else 0).
Proof.
  intros Hv [Ha1 Hfresh1].
  assert (Hgrow : ∀ (hs : gmap Z (option positive)) a q,
            hs !! a = None → <[a := q]> hs ≠ hs).
  { intros hs a q Hnone Heq.
    rewrite <- Heq, lookup_insert_eq in Hnone. done. }
  set (σ1 := State (SharedPtr.share p (use_count σ)) (<[a1 := p]> (holders σ))).
  assert (Hv1 : SharedPtr.valid σ1 p) by by apply share_valid.
  exists (handle_of a1), σ1. split_and!.
  - by apply jptr_eq.
  - by apply Hgrow.
  - done.
  - intros o. by apply count_share.
  - intros a2 [Ha2 Hfresh2]. eexists _, _. split_and!.
    + by apply jptr_call_eq.
    + intros Heq. apply handle_of_inj in Heq; [|lia..].
      subst a2. simpl in Hfresh2. by rewrite lookup_insert_eq in Hfresh2.
    + by apply Hgrow.
    + done.
    + intros o. by apply count_jptr_call.
  - set (σ2 := State (SharedPtr.share p (use_count σ1)) (holders σ1)).
    assert (Hv2 : SharedPtr.valid σ2 p) by by apply share_valid.
    eexists σ2, _. split_and!.
    + apply native_eq; [lia | apply lookup_insert_eq | done].
    + apply (native_eq σ2); [lia | apply lookup_insert_eq | done].
    + done.
    + done.
    + intros o. split.
      * unfold σ2. by rewrite count_share.
      * by rewrite count_share.
Qed.

End Bridge.

(** ** The bridge on the sample heap *)
Section SampleRuns.

Import Sample.

Local Abbreviation jptr := (PortalScene.jptr ptr_bits ref_bits).
Local Abbreviation native := (PortalScene.native ptr_bits).
Local Abbreviation release := (PortalScene.release ptr_bits).

Example jptr_sample : jptr a1 portal σ0 = Done h1 σ1.
Proof. vm_compute. reflexivity. Qed.

Example jptr_sample_again : jptr a2 portal σ1 = Done h2 σ2.
Proof. vm_compute. reflexivity. Qed.

Example native_sample :
  native h1 σ1 = Done portal (State {[1%positive := 3%positive]} (holders σ1)).
Proof. vm_compute. reflexivity. Qed.

Example native_sample_null : native 0 σ1 = Undefined.
Proof. vm_compute. reflexivity. Qed.

Example release_sample :
  release h2 σ2 = Done tt σ1.
Proof. vm_compute. reflexivity. Qed.

Local Abbreviation valid_handle := (PortalScene.valid_handle ptr_bits ref_bits).
Local Abbreviation new_returns := (PortalScene.new_returns ptr_bits).

(** Side conditions on the sample heap are settled by evaluation. *)
Local Ltac evaluate :=
  let finish := (repeat split; first [by vm_compute | vm_compute; by eauto]) in
  lazymatch goal with
  | |- PortalScene.valid_handle _ _ _ _ _ =>
      first [ exists a1; finish | exists a2; finish ]
  | |- _ => finish
  end.

Lemma native_jptr_roundtrip_sample :
  ∃ h σ σ',
    jptr a1 (Some 1%positive) σ0 = Done h σ ∧
    native h σ = Done (Some 1%positive) σ'.
Proof. apply native_jptr_roundtrip; evaluate. Defined.

Lemma native_jptr_empty_sample :
  ∃ h σ σ',
    jptr a1 None σ0 = Done h σ ∧ native h σ = Done None σ' ∧
    use_count σ' = use_count σ0.
Proof. apply native_jptr_empty; evaluate. Defined.

Lemma jptr_nonzero_sample :
  ∃ h σ, jptr a1 portal σ0 = Done h σ ∧ h ≠ 0.
Proof. apply jptr_nonzero; evaluate. Defined.

Lemma jptr_handle_distinct_sample :
  ∃ h σ,
    jptr a2 portal σ1 = Done h σ ∧ h ≠ h1 ∧
    valid_handle σ h1 portal ∧ valid_handle σ h portal ∧
    (∃ σ', release h1 σ = Done tt σ' ∧ valid_handle σ' h portal) ∧
    (∃ σ', release h σ = Done tt σ' ∧ valid_handle σ' h1 portal).
Proof. apply jptr_handle_distinct; evaluate. Defined.

Lemma jptr_call_effect_sample :
  ∃ h σb σ,
    PortalScene.jptr_body ptr_bits ref_bits a1 portal σ0 = Done h σb ∧
    (∀ o, count σb o =
          count σ0 o + (if decide (portal = Some o) then 1 else 0)) ∧
    PortalScene.jptr_call ptr_bits ref_bits PortalScene.Moved a1 portal σ0 =
      Done h σ ∧
    holders σ = <[a1 := portal]> (holders σ0) ∧
    dom (holders σ) = {[a1]} ∪ dom (holders σ0) ∧
    size (holders σ) = S (size (holders σ0)) ∧
    (∀ a, a ≠ a1 → holders σ !! a = holders σ0 !! a) ∧
    (∀ o, count σ o =
          count σ0 o +
            (if decide (portal = Some o)
             then PortalScene.owners_gained PortalScene.Moved else 0)).
Proof. apply jptr_call_effect; evaluate. Defined.

(** C3 as stated fails: called with its argument moved, [jptr] leaves
    the use count of the portal as it found it, here at one, with the
    one new holder in the heap. *)
Lemma jptr_moved_count_unchanged :
  PortalScene.jptr_call ptr_bits ref_bits PortalScene.Moved a1 portal σ0 =
    Done h1 SampleMoved.σ1 ∧
  size (holders SampleMoved.σ1) = 1%nat ∧
  count SampleMoved.σ1 1 = count σ0 1 ∧
  count SampleMoved.σ1 1 ≠ count σ0 1 + 1.
Proof. split_and!; by vm_compute. Qed.

Lemma native_frame_sample :
  ∃ σ,
    native h1 σ1 = Done portal σ ∧
    holders σ = holders σ1 ∧
    (∀ o, count σ o = count σ1 o + (if decide (portal = Some o) then 1 else 0)) ∧
    valid_handle σ h1 portal ∧
    SharedPtr.destroy portal σ = Done tt σ1.
Proof. apply (native_frame ptr_bits ref_bits); evaluate. Defined.

Lemma run_never_releases_sample :
  PortalScene.run ptr_bits ref_bits calls σ0 = Done results σ5 ∧
  (∀ o, count σ0 o ≤ count σ5 o) ∧
  (∀ o, is_Some (use_count σ0 !! o) → is_Some (use_count σ5 !! o)) ∧
  (∀ a, is_Some (holders σ0 !! a) → is_Some (holders σ5 !! a)).
Proof.
  split; [by vm_compute|].
  apply (run_never_releases ptr_bits ref_bits calls σ0 results σ5).
  by vm_compute.
Defined.

Lemma native_repeatable_sample :
  ∃ σ,
    PortalScene.native_times ptr_bits 3 h1 σ1 = Done (replicate 3 portal) σ ∧
    holders σ = holders σ1 ∧
    (∀ o, count σ o =
          count σ1 o + (if decide (portal = Some o) then Z.of_nat 3 else 0)) ∧
    valid_handle σ h1 portal.
Proof. apply (native_repeatable ptr_bits ref_bits); evaluate. Defined.

Lemma bridge_repeated_calls_sample :
  ∃ h σ,
    jptr a1 portal σ0 = Done h σ ∧ holders σ ≠ holders σ0 ∧
    holders σ = <[a1 := portal]> (holders σ0) ∧
    (∀ o, count σ o =
          count σ0 o + (if decide (portal = Some o) then 1 else 0)) ∧
    (∀ a, new_returns σ a →
       ∃ h' σ',
         PortalScene.jptr_call ptr_bits ref_bits PortalScene.Copied a portal σ =
           Done h' σ' ∧
         h' ≠ h ∧ holders σ' ≠ holders σ ∧
         holders σ' = <[a := portal]> (holders σ) ∧
         ∀ o, count σ' o =
              count σ o +
                (if decide (portal = Some o)
                 then PortalScene.owners_gained PortalScene.Copied else 0)) ∧
    ∃ σ' σ'',
      native h σ = Done portal σ' ∧ native h σ' = Done portal σ'' ∧
      holders σ' = holders σ ∧ holders σ'' = holders σ ∧
      ∀ o, count σ' o =
             count σ o + (if decide (portal = Some o) then 1 else 0) ∧
           count σ'' o =
             count σ' o + (if decide (portal = Some o) then 1 else 0).
Proof. apply bridge_repeated_calls; evaluate. Defined.

(** C7 as stated fails: [jptr] run twice on the same reference returns
    two different handles, here [h1] and then [h2], and so it does
    whatever address [new] hands out the second time; the first call has
    changed the heap. *)
Lemma jptr_twice_differs :
  jptr a1 portal σ0 = Done h1 σ1 ∧
  jptr a2 portal σ1 = Done h2 σ2 ∧
  h2 ≠ h1 ∧ σ1 ≠ σ0 ∧
  (∀ a h σ, new_returns σ1 a → jptr a portal σ1 = Done h σ → h ≠ h1).
Proof.
  split; [by vm_compute|]. split; [by vm_compute|].
  split; [by vm_compute|]. split; [by vm_compute|].
  intros a h σ [Ha Hfresh] Hcall.
  rewrite jptr_eq in Hcall by evaluate. simplify_eq.
  change h1 with (PortalScene.handle_of ptr_bits ref_bits a1).
  intros Heq. apply handle_of_inj in Heq; [| first [lia | evaluate] ..].
  subst a. by vm_compute in Hfresh.
Qed.

End SampleRuns.

(** * Further properties of the bridge *)
Section BridgeCalls.

Variables ptr_bits ref_bits : Z.
Hypothesis ptr_bits_pos : 0 < ptr_bits.
Hypothesis ref_bits_ge : ptr_bits ≤ ref_bits.

Local Abbreviation handle_of := (PortalScene.handle_of ptr_bits ref_bits).
Local Abbreviation pointer_of := (PortalScene.reinterpret_cast_pointer ptr_bits).
Local Abbreviation jptr := (PortalScene.jptr ptr_bits ref_bits).
Local Abbreviation native := (PortalScene.native ptr_bits).
Local Abbreviation new_returns := (PortalScene.new_returns ptr_bits).
Local Abbreviation valid_handle := (PortalScene.valid_handle ptr_bits ref_bits).
Local Abbreviation step := (Bridge.step ptr_bits ref_bits).
Local Abbreviation heap_ok := (Bridge.heap_ok ptr_bits).

Implicit Types (σ : state) (p held : option positive) (o : positive)
  (a h : Z).

(** ** Addresses and handles *)

Lemma intptr_value a :
  0 ≤ a < 2 ^ ptr_bits →
  PortalScene.reinterpret_cast_intptr ptr_bits a =
    if decide (a < 2 ^ (ptr_bits - 1)) then a else a - 2 ^ ptr_bits.
Proof.
  intros Ha. unfold PortalScene.reinterpret_cast_intptr, wrap_signed.
  pose proof (pow2_half ptr_bits ptr_bits_pos) as Hhalf.
  pose proof (pow2_half_pos ptr_bits ptr_bits_pos).
  case_decide.
  - rewrite Z.mod_small by lia. lia.
  - replace (a + 2 ^ (ptr_bits - 1))
      with (a - 2 ^ (ptr_bits - 1) + 1 * 2 ^ ptr_bits) by lia.
    rewrite Z_mod_plus_full, Z.mod_small by lia. lia.
Qed.

Lemma pointer_range h : 0 ≤ pointer_of h < 2 ^ ptr_bits.
Proof.
  unfold PortalScene.reinterpret_cast_pointer, wrap_unsigned.
  apply Z.mod_pos_bound, Z.pow_pos_nonneg; lia.
Qed.

Lemma handle_of_pointer h :
  - 2 ^ (ptr_bits - 1) ≤ h < 2 ^ (ptr_bits - 1) →
  handle_of (pointer_of h) = h.
Proof.
  intros Hh. rewrite handle_of_intptr by done.
  unfold PortalScene.reinterpret_cast_intptr,
    PortalScene.reinterpret_cast_pointer, wrap_unsigned, wrap_signed.
  pose proof (pow2_half ptr_bits ptr_bits_pos).
  rewrite Zplus_mod_idemp_l, Z.mod_small by lia. lia.
Qed.

(** The two casts are inverse to each other: addresses correspond one
    to one to the handles in the [intptr_t] range, and [native] finds
    the address of a holder from its handle. *)
Theorem handle_pointer_bijection :
  (∀ a, 0 ≤ a < 2 ^ ptr_bits →
        pointer_of (handle_of a) = a ∧
        - 2 ^ (ptr_bits - 1) ≤ handle_of a < 2 ^ (ptr_bits - 1)) ∧
  (∀ h, - 2 ^ (ptr_bits - 1) ≤ h < 2 ^ (ptr_bits - 1) →
        handle_of (pointer_of h) = h ∧ 0 ≤ pointer_of h < 2 ^ ptr_bits).
Proof.
  split.
  - intros a Ha. split; [by apply pointer_of_handle|].
    rewrite handle_of_intptr by done. by apply wrap_signed_range.
  - intros h Hh. split; [by apply handle_of_pointer | apply pointer_range].
Qed.

(** The handle [jptr] returns is the holder's address as a signed
    pointer-sized integer: the address itself in the lower half of the
    address space, and a negative number in the upper half. *)
Theorem jptr_handle_value σ a p :
  SharedPtr.valid σ p →
  new_returns σ a →
  ∃ σ',
    jptr a p σ =
      Done (if decide (a < 2 ^ (ptr_bits - 1)) then a else a - 2 ^ ptr_bits) σ'.
Proof.
  intros Hv [Ha _]. eexists.
  rewrite <- intptr_value, <- (handle_of_intptr ptr_bits ref_bits)
    by (done || lia).
  by apply jptr_eq.
Qed.

(** ** Heaps reached through the bridge *)

(** What one call does to the heap: one more owner for some valid
    reference [q], and for [jptr] a holder of [q] on fresh storage. *)
Lemma step_inv σ σ' :
  step σ σ' →
  ∃ q hs,
    σ' = State (SharedPtr.share q (use_count σ)) hs ∧
    SharedPtr.valid σ q ∧
    (hs = holders σ ∨ ∃ a, new_returns σ a ∧ hs = <[a := q]> (holders σ)).
Proof.
  intros [σ0 a p h σ0' Hnew Hcall | σ0 h p σ0' Hcall].
  - pose proof (jptr_done _ _ _ _ _ _ _ Hcall) as Hv.
    rewrite jptr_eq in Hcall by done. simplify_eq.
    eexists p, _. split_and!; [done | done |]. right. by exists a.
  - apply native_done in Hcall as (_ & Hv & ->).
    eexists p, _. split_and!; [done | done |]. by left.
Qed.

Lemma step_holders σ σ' a held :
  step σ σ' → holders σ !! a = Some held → holders σ' !! a = Some held.
Proof.
  intros (q & hs & -> & _ & [-> | (a' & [_ Hfresh] & ->)])%step_inv Hheld;
    simpl; [done|].
  rewrite lookup_insert_ne; [done | congruence].
Qed.

Lemma step_valid σ σ' p :
  step σ σ' → SharedPtr.valid σ p → SharedPtr.valid σ' p.
Proof.
  intros (q & hs & -> & _ & _)%step_inv Hv. by apply share_valid.
Qed.

Lemma step_heap_ok σ σ' : step σ σ' → heap_ok σ → heap_ok σ'.
Proof.
  intros Hstep Hok.
  pose proof Hstep as (q & hs & -> & Hq & Hhs)%step_inv.
  assert (Hold : map_Forall
    (λ a held, 0 < a < 2 ^ ptr_bits ∧
       SharedPtr.valid (State (SharedPtr.share q (use_count σ)) hs) held)
    (holders σ)).
  { eapply map_Forall_impl; [exact Hok|]. simpl.
    intros a held [Ha Hv]. split; [done | by apply share_valid]. }
  unfold Bridge.heap_ok. simpl.
  destruct Hhs as [-> | (a & [Ha _] & ->)]; [done|].
  apply map_Forall_insert_2; [|done].
  split; [done | by apply share_valid].
Qed.

(** A valid handle stays valid, for the same reference, whatever calls
    of [jptr] and [native] follow. *)
Theorem valid_handle_stable σ σ' h held :
  valid_handle σ h held →
  rtc step σ σ' →
  valid_handle σ' h held.
Proof.
  intros Hh Hsteps. induction Hsteps as [σ | σ σ1 σ' Hstep _ IH]; [done|].
  apply IH. destruct Hh as (a & Ha & -> & Hheld & Hv).
  exists a. split_and!; [lia | lia | done | |].
  - by eapply step_holders.
  - by eapply step_valid.
Qed.

(** Starting from a heap whose holders are in order, every heap the
    bridge reaches has its holders in order, and every holder in it is
    behind a valid handle: the one derived from its address. *)
Theorem heap_ok_reachable σ σ' :
  heap_ok σ →
  rtc step σ σ' →
  heap_ok σ' ∧
  ∀ a held, holders σ' !! a = Some held → valid_handle σ' (handle_of a) held.
Proof.
  intros Hok Hsteps.
  assert (Hok' : heap_ok σ').
  { induction Hsteps as [σ | σ σ1 σ' Hstep _ IH]; [done|].
    apply IH. by eapply step_heap_ok. }
  split; [done|]. intros a held Hheld.
  destruct (Hok' a held Hheld) as [Ha Hv].
  exists a. split_and!; [lia | lia | done..].
Qed.

(** In a heap whose holders are in order, [native] completes on an
    integer of the [intptr_t] range exactly when it is a valid handle,
    and on any integer only by reading the holder its pointer bits
    address; on zero its behaviour is undefined. *)
Theorem native_defined_iff σ :
  heap_ok σ →
  (∀ h, - 2 ^ (ptr_bits - 1) ≤ h < 2 ^ (ptr_bits - 1) →
        (∃ p σ', native h σ = Done p σ') ↔ (∃ held, valid_handle σ h held)) ∧
  (∀ h p σ', native h σ = Done p σ' →
             valid_handle σ (handle_of (pointer_of h)) p) ∧
  native 0 σ = Undefined.
Proof.
  intros Hok.
  assert (Hdone : ∀ h p σ', native h σ = Done p σ' →
            valid_handle σ (handle_of (pointer_of h)) p).
  { intros h p σ' (Hheld & Hv & _)%native_done.
    destruct (Hok _ _ Hheld) as [Ha _].
    exists (pointer_of h). split_and!; [lia | lia | done..]. }
  split_and!; [|done|].
  - intros h Hh. split.
    + intros (p & σ' & Hcall). exists p.
      rewrite <- (handle_of_pointer h) at 1 by done. by eapply Hdone.
    + intros (held & a & Ha & -> & Hheld & Hv).
      eexists _, _. apply (native_eq ptr_bits ref_bits); [done | done | lia | done..].
  - destruct (native 0 σ) as [p σ'|] eqn:Hcall; [|done].
    apply native_done in Hcall as (Hheld & _).
    destruct (Hok _ _ Hheld) as [Ha _].
    unfold PortalScene.reinterpret_cast_pointer, wrap_unsigned in Ha.
    rewrite Z.mod_0_l in Ha; lia.
Qed.

(** ** Holders and owners *)

Lemma held_by_insert σ uc a q o :
  holders σ !! a = None →
  Bridge.held_by (State uc (<[a := q]> (holders σ))) o =
    (Bridge.held_by σ o + (if decide (q = Some o) then 1 else 0))%nat.
Proof.
  intros Hfresh. unfold Bridge.held_by. cbn [holders].
  destruct (decide (q = Some o)) as [->|Hne].
  - rewrite map_filter_insert_True by done.
    rewrite map_size_insert_None; [lia|].
    by apply map_lookup_filter_None_2; left.
  - rewrite map_filter_insert_not' by (done || by rewrite Hfresh). lia.
Qed.

Lemma step_accounted σ σ' : step σ σ' → Bridge.accounted σ → Bridge.accounted σ'.
Proof.
  intros (q & hs & -> & Hq & Hhs)%step_inv Hacc o.
  specialize (Hacc o). rewrite count_share by done.
  destruct Hhs as [-> | (a & [_ Hfresh] & ->)].
  - change (Bridge.held_by (State _ (holders σ)) o) with (Bridge.held_by σ o).
    case_decide; lia.
  - rewrite held_by_insert by done. case_decide; lia.
Qed.

(** Starting from a heap in which the holders of every portal are
    counted among its owners, so they are in every heap the bridge
    reaches: a portal with a holder is alive. *)
Theorem accounted_reachable σ σ' :
  Bridge.accounted σ →
  rtc step σ σ' →
  Bridge.accounted σ' ∧
  ∀ o, (0 < Bridge.held_by σ' o)%nat → is_Some (use_count σ' !! o).
Proof.
  intros Hacc Hsteps.
  assert (Hacc' : Bridge.accounted σ').
  { induction Hsteps as [σ | σ σ1 σ' Hstep _ IH]; [done|].
    apply IH. by eapply step_accounted. }
  split; [done|]. intros o Ho. apply count_alive.
  specialize (Hacc' o). lia.
Qed.

(** ** The exact effect of a call sequence *)

Lemma jptr_call_done m σ a p h σ' :
  PortalScene.jptr_call ptr_bits ref_bits m a p σ = Done h σ' →
  SharedPtr.valid σ p.
Proof.
  destruct m; simpl; [by apply jptr_done|].
  unfold PortalScene.jptr_moved, PortalScene.jptr_body,
    PersistentRef.construct.
  intros (? & ? & (? & ? & (? & ? & Hc & _)%bind_inv & _)%bind_inv & _)%bind_inv.
  by eapply copy_done.
Qed.

Lemma invoke_effect c σ r σ' :
  Bridge.invoke ptr_bits ref_bits c σ = Done r σ' →
  SharedPtr.valid σ (Bridge.referent c r) ∧
  σ' = State (SharedPtr.share (Bridge.referent c r) (use_count σ))
         (Bridge.stored [c] (holders σ)).
Proof.
  destruct c as [m a p|h]; simpl;
    intros (x & σ1 & Hcall & Hret)%bind_inv;
    unfold ret in Hret; simplify_eq; simpl.
  - pose proof (jptr_call_done _ _ _ _ _ _ Hcall) as Hv.
    rewrite jptr_call_eq in Hcall by done. simplify_eq.
    by destruct m.
  - by apply native_done in Hcall as (_ & Hv & ->).
Qed.

(** A completed sequence of calls returns one result per call, leaves
    the holders the [jptr] calls stored and no other change to the
    holders, and has raised the use count of every portal by exactly
    the number of calls that left it one more owner: the [jptr] calls
    given a reference to it that the caller kept, and the [native]
    calls that returned one. A [jptr] call whose argument was moved
    leaves the count as it was. *)
Theorem exec_effect cs σ rs σ' :
  Bridge.exec ptr_bits ref_bits cs σ = Done rs σ' →
  length rs = length cs ∧
  holders σ' = Bridge.stored cs (holders σ) ∧
  ∀ o, count σ' o = count σ o + Z.of_nat (Bridge.owners_added o cs rs).
Proof.
  revert σ rs σ'. induction cs as [|c cs IH]; intros σ rs σ'; simpl.
  - unfold ret. intros ?. simplify_eq. split_and!; [done | done |].
    intros o. unfold Bridge.owners_added. simpl. lia.
  - intros (r & σ1 & Hc & (rs' & σ2 & Hcs & Hret)%bind_inv)%bind_inv.
    unfold ret in Hret. simplify_eq.
    apply invoke_effect in Hc as [Hv ->].
    apply IH in Hcs as (Hlen & Hhs & Hcount). split_and!.
    + simpl. by rewrite Hlen.
    + by rewrite Hhs.
    + intros o. rewrite Hcount, count_share by done.
      unfold Bridge.owners_added. simpl. rewrite filter_cons.
      case_decide; simpl; lia.
Qed.

(** ** Independent calls commute *)

Lemma valid_dec σ p : SharedPtr.valid σ p ∨ ¬ SharedPtr.valid σ p.
Proof.
  destruct p as [o|]; simpl; [|by left].
  destruct (use_count σ !! o); [left; eauto | right; by intros [? ?]].
Qed.

Lemma share_valid_inv σ p q hs :
  SharedPtr.valid (State (SharedPtr.share q (use_count σ)) hs) p →
  SharedPtr.valid σ p.
Proof.
  destruct p as [o|], q as [o'|]; simpl; try done.
  intros H. by apply lookup_alter_is_Some in H.
Qed.

Lemma share_comm p q (uc : gmap positive positive) :
  SharedPtr.share p (SharedPtr.share q uc) =
    SharedPtr.share q (SharedPtr.share p uc).
Proof.
  destruct p as [o|], q as [o'|]; simpl; try done.
  destruct (decide (o = o')) as [->|Hne]; [done|].
  by apply alter_alter_ne.
Qed.

Lemma copy_invalid σ p : ¬ SharedPtr.valid σ p → SharedPtr.copy p σ = Undefined.
Proof.
  destruct p as [o|]; simpl; [|done].
  destruct (use_count σ !! o); [|done]. intros []. eauto.
Qed.

Lemma jptr_then {B} σ a p (k : Z → M B) :
  SharedPtr.valid σ p →
  bind (jptr a p) k σ =
    k (handle_of a)
      (State (SharedPtr.share p (use_count σ)) (<[a := p]> (holders σ))).
Proof. intros Hv. apply bind_done. by apply jptr_eq. Qed.

Lemma jptr_then_invalid {B} σ a p (k : Z → M B) :
  ¬ SharedPtr.valid σ p → bind (jptr a p) k σ = Undefined.
Proof.
  intros Hv. unfold PortalScene.jptr, bind at 1 2.
  by rewrite copy_invalid.
Qed.

Lemma native_then {B} σ h held (k : option positive → M B) :
  holders σ !! pointer_of h = Some held →
  SharedPtr.valid σ held →
  bind (native h) k σ =
    k held (State (SharedPtr.share held (use_count σ)) (holders σ)).
Proof.
  intros Hheld Hv. apply bind_done.
  unfold PortalScene.native, PersistentRef.get.
  rewrite Hheld. by apply copy_valid.
Qed.

Lemma native_then_invalid {B} σ h (k : option positive → M B) :
  (∀ held, holders σ !! pointer_of h = Some held → ¬ SharedPtr.valid σ held) →
  bind (native h) k σ = Undefined.
Proof.
  intros Hbad. unfold bind, PortalScene.native, PersistentRef.get.
  destruct (holders σ !! pointer_of h) as [held|]; [|done].
  by rewrite copy_invalid by by apply Hbad.
Qed.

(** Two [jptr] calls on different storage can be made in either order:
    each returns the same handle, and the heap they leave is the same;
    if one order is undefined, so is the other. *)
Theorem jptr_jptr_commute σ a1 a2 p1 p2 :
  a1 ≠ a2 →
  (let* h1 := jptr a1 p1 in let* h2 := jptr a2 p2 in ret (h1, h2)) σ =
  (let* h2 := jptr a2 p2 in let* h1 := jptr a1 p1 in ret (h1, h2)) σ.
Proof.
  intros Hne.
  destruct (valid_dec σ p1) as [Hv1|Hv1], (valid_dec σ p2) as [Hv2|Hv2].
  - rewrite (jptr_then σ a1), (jptr_then σ a2) by done.
    rewrite !jptr_then by by apply share_valid.
    unfold ret. simpl. by rewrite share_comm, insert_insert_ne.
  - rewrite (jptr_then σ a1), (jptr_then_invalid σ a2) by done.
    apply jptr_then_invalid. intros Hv%share_valid_inv. done.
  - rewrite (jptr_then_invalid σ a1), (jptr_then σ a2) by done.
    symmetry. apply jptr_then_invalid. intros Hv%share_valid_inv. done.
  - by rewrite (jptr_then_invalid σ a1), (jptr_then_invalid σ a2).
Qed.

(** A [native] call and a [jptr] call on storage other than the holder
    that [native] reads can be made in either order: same reference,
    same handle, same heap; if one order is undefined, so is the
    other. *)
Theorem native_jptr_commute σ h a p :
  pointer_of h ≠ a →
  (let* q := native h in let* h' := jptr a p in ret (q, h')) σ =
  (let* h' := jptr a p in let* q := native h in ret (q, h')) σ.
Proof.
  intros Hne.
  destruct (valid_dec σ p) as [Hp|Hp].
  - rewrite (jptr_then σ a) by done.
    destruct (holders σ !! pointer_of h) as [held|] eqn:Hheld.
    + destruct (valid_dec σ held) as [Hv|Hv].
      * rewrite (native_then σ h held) by done.
        rewrite jptr_then by by apply share_valid.
        rewrite (native_then _ h held);
          [| by simpl; rewrite lookup_insert_ne | by apply share_valid].
        unfold ret. simpl. by rewrite share_comm.
      * rewrite !native_then_invalid; [done | |].
        -- simpl. intros held'. rewrite lookup_insert_ne by done.
           intros ? Hv'%share_valid_inv. congruence.
        -- intros held' ?. congruence.
    + rewrite !native_then_invalid; [done | |].
      * simpl. intros held'. rewrite lookup_insert_ne by done. congruence.
      * intros held'. congruence.
  - rewrite (jptr_then_invalid σ a) by done.
    destruct (holders σ !! pointer_of h) as [held|] eqn:Hheld.
    + destruct (valid_dec σ held) as [Hv|Hv].
      * rewrite (native_then σ h held) by done.
        apply jptr_then_invalid. intros Hv'%share_valid_inv. done.
      * apply native_then_invalid. intros held' ?. congruence.
    + apply native_then_invalid. intros held'. congruence.
Qed.

(** ** Absence of error paths *)

(** C4: [native] on a valid handle completes and returns the held
    reference; [jptr] completes on every reference, empty or not,
    copied or moved, and its handle is valid. Neither checks its input
    or reports an error: [native] looks at nothing but the pointer bits
    of its argument; when it completes it has read a live holder and
    returns what that holder stores; where those bits address no live
    holder its behaviour is undefined, and so it is, holders being
    where [new] put them, on every integer of the [intptr_t] range that
    is not a valid handle. *)
Theorem bridge_no_error_path σ :
  (∀ h held, valid_handle σ h held → ∃ σ', native h σ = Done held σ') ∧
  (∀ a p, SharedPtr.valid σ p → new_returns σ a →
     ∃ h σ', jptr a p σ = Done h σ' ∧ valid_handle σ' h p) ∧
  (∀ h h', pointer_of h = pointer_of h' → native h σ = native h' σ) ∧
  (∀ a p, SharedPtr.valid σ p → new_returns σ a →
     ∃ h σ', PortalScene.jptr_moved ptr_bits ref_bits a p σ = Done h σ' ∧
             valid_handle σ' h p) ∧
  (∀ h p σ', native h σ = Done p σ' →
     holders σ !! pointer_of h = Some p ∧ SharedPtr.valid σ p) ∧
  (∀ h, holders σ !! pointer_of h = None → native h σ = Undefined) ∧
  (heap_ok σ →
   ∀ h, - 2 ^ (ptr_bits - 1) ≤ h < 2 ^ (ptr_bits - 1) →
        (∀ held, ¬ valid_handle σ h held) → native h σ = Undefined).
Proof.
  split_and!.
  - intros h held (a & Ha & -> & Hheld & Hv).
    eexists. apply (native_eq ptr_bits ref_bits); [done | done | lia | done..].
  - intros a p Hv [Ha Hfresh].
    eexists _, _. split; [by apply jptr_eq|].
    exists a. split_and!; [lia | lia | done | apply lookup_insert_eq |].
    by apply share_valid.
  - intros h h' Heq. unfold PortalScene.native. by rewrite Heq.
  - intros a p Hv [Ha Hfresh].
    eexists _, _. split; [by apply jptr_moved_eq|].
    exists a. split_and!; [lia | lia | done | apply lookup_insert_eq |].
    by destruct p.
  - intros h p σ' (Hheld & Hv & _)%native_done. done.
  - intros h Hnone. unfold PortalScene.native, PersistentRef.get.
    by rewrite Hnone.
  - intros Hok h Hh Hbad.
    destruct (native h σ) as [p σ'|] eqn:Hcall; [|done].
    apply native_done in Hcall as (Hheld & Hv & _).
    destruct (Hok _ _ Hheld) as [Ha _].
    destruct (Hbad p). exists (pointer_of h).
    split_and!; [lia | lia | by rewrite handle_of_pointer | done..].
Qed.

End BridgeCalls.

(** ** Further runs on the sample heap *)
Section SampleCalls.

Import Sample.

Local Abbreviation jptr := (PortalScene.jptr ptr_bits ref_bits).
Local Abbreviation native := (PortalScene.native ptr_bits).
Local Abbreviation handle_of := (PortalScene.handle_of ptr_bits ref_bits).
Local Abbreviation pointer_of := (PortalScene.reinterpret_cast_pointer ptr_bits).
Local Abbreviation valid_handle := (PortalScene.valid_handle ptr_bits ref_bits).
Local Abbreviation step := (Bridge.step ptr_bits ref_bits).
Local Abbreviation heap_ok := (Bridge.heap_ok ptr_bits).

Local Ltac evaluate :=
  repeat split; first [by vm_compute | vm_compute; by eauto].

Lemma sample_step_1 : step σ0 σ1.
Proof. apply (Bridge.step_jptr _ _ σ0 a1 portal h1); evaluate. Defined.

Lemma sample_step_2 : step σ1 σ2.
Proof. apply (Bridge.step_jptr _ _ σ1 a2 portal h2); evaluate. Defined.

Lemma sample_heap_ok_0 : heap_ok σ0.
Proof. apply map_Forall_empty. Defined.

Lemma sample_heap_ok_1 : heap_ok σ1.
Proof.
  apply map_Forall_insert_2; [evaluate | apply map_Forall_empty].
Defined.

Lemma sample_accounted_0 : Bridge.accounted σ0.
Proof.
  intros o. unfold Bridge.held_by. simpl.
  rewrite map_filter_empty, map_size_empty.
  unfold count. destruct (_ !! o); lia.
Defined.

Lemma handle_pointer_bijection_sample :
  (pointer_of (handle_of a1) = a1 ∧ - 2 ^ 31 ≤ handle_of a1 < 2 ^ 31) ∧
  (handle_of (pointer_of h1) = h1 ∧ 0 ≤ pointer_of h1 < 2 ^ 32).
Proof.
  destruct (handle_pointer_bijection ptr_bits ref_bits) as [Ha Hh];
    [evaluate ..|].
  split; [apply Ha | apply Hh]; evaluate.
Defined.

Lemma jptr_handle_value_sample :
  ∃ σ, jptr a1 portal σ0 =
         Done (if decide (a1 < 2 ^ (ptr_bits - 1)) then a1 else a1 - 2 ^ ptr_bits) σ.
Proof. apply jptr_handle_value; evaluate. Defined.

Lemma valid_handle_stable_sample : valid_handle σ2 h1 portal.
Proof.
  apply (valid_handle_stable ptr_bits ref_bits σ1 σ2).
  - exists a1. evaluate.
  - apply rtc_once, sample_step_2.
Defined.

Lemma heap_ok_reachable_sample :
  heap_ok σ2 ∧
  ∀ a held, holders σ2 !! a = Some held → valid_handle σ2 (handle_of a) held.
Proof.
  apply (heap_ok_reachable ptr_bits ref_bits σ0 σ2).
  - exact sample_heap_ok_0.
  - eapply rtc_l; [exact sample_step_1|]. apply rtc_once, sample_step_2.
Defined.

Lemma native_defined_iff_sample :
  ((∃ p σ, native h1 σ1 = Done p σ) ↔ (∃ held, valid_handle σ1 h1 held)) ∧
  native 0 σ1 = Undefined.
Proof.
  destruct (native_defined_iff ptr_bits ref_bits) with σ1 as (Hiff & _ & Hnull);
    [evaluate | evaluate | exact sample_heap_ok_1 |].
  split; [apply Hiff; evaluate | exact Hnull].
Defined.

Lemma accounted_reachable_sample :
  Bridge.accounted σ2 ∧
  ∀ o, (0 < Bridge.held_by σ2 o)%nat → is_Some (use_count σ2 !! o).
Proof.
  apply (accounted_reachable ptr_bits ref_bits σ0 σ2).
  - exact sample_accounted_0.
  - eapply rtc_l; [exact sample_step_1|]. apply rtc_once, sample_step_2.
Defined.

Lemma exec_effect_sample :
  length SampleMoved.results = length SampleMoved.calls ∧
  holders SampleMoved.σ5 = Bridge.stored SampleMoved.calls (holders σ0) ∧
  ∀ o, count SampleMoved.σ5 o =
       count σ0 o +
         Z.of_nat (Bridge.owners_added o SampleMoved.calls SampleMoved.results).
Proof. apply (exec_effect ptr_bits ref_bits). by vm_compute. Defined.

Lemma bridge_no_error_path_sample :
  (∃ σ, native h1 σ1 = Done portal σ) ∧
  (∃ h σ, jptr a2 None σ1 = Done h σ ∧ valid_handle σ h None) ∧
  native (h1 + 2 ^ 32) σ1 = native h1 σ1 ∧
  (∃ h σ, PortalScene.jptr_moved ptr_bits ref_bits a2 portal σ1 = Done h σ ∧
          valid_handle σ h portal) ∧
  (holders σ1 !! pointer_of h1 = Some portal ∧ SharedPtr.valid σ1 portal) ∧
  native h2 σ1 = Undefined ∧
  native 0 σ1 = Undefined.
Proof.
  destruct (bridge_no_error_path ptr_bits ref_bits) with σ1
    as (Hn & Hj & Hp & Hm & Hd & Hu & Hr); [evaluate ..|].
  refine (conj _ (conj _ (conj _ (conj _ (conj _ (conj _ _)))))).
  - apply Hn. exists a1. evaluate.
  - apply Hj; evaluate.
  - apply Hp. evaluate.
  - apply Hm; evaluate.
  - apply (Hd h1 portal (State {[1%positive := 3%positive]} (holders σ1))).
    by vm_compute.
  - apply Hu. by vm_compute.
  - apply Hr; [exact sample_heap_ok_1 | evaluate |].
    intros held (a & Ha & Hh & Hheld & _).
    apply (handle_of_nonzero ptr_bits ref_bits) in Ha; [| evaluate ..].
    congruence.
Defined.

Lemma jptr_jptr_commute_sample :
  (let* x := jptr a1 portal in let* y := jptr a2 None in ret (x, y)) σ0 =
  (let* y := jptr a2 None in let* x := jptr a1 portal in ret (x, y)) σ0.
Proof. apply jptr_jptr_commute. evaluate. Defined.

Lemma native_jptr_commute_sample :
  (let* q := native h1 in let* y := jptr a2 portal in ret (q, y)) σ1 =
  (let* y := jptr a2 portal in let* q := native h1 in ret (q, y)) σ1.
Proof. apply native_jptr_commute. evaluate. Defined.

End SampleCalls.
